(** * heeem321/Scripts: [check_if_resolves.py] and [DNSDumpster.py]

    Both scripts are sequential glue around an external service: the
    platform's name resolver behind [socket.gethostbyname], and the
    DNSDumpster web API.  They are embedded in a small monad of Python
    statements (world passing, with an outcome that is either a value or a
    raised exception).  The external service and the standard output are
    variables of a Section: a call of the service may raise, and so may a
    write to the standard output.  These are the exceptions of the model:
    an interrupt that arrives between two statements is not part of it.
    The calls made to the service and the lines written are recorded in a
    chronological trace. *)

From Stdlib Require Import List String Ascii Arith Lia Bool.
Import ListNotations.
Local Open Scope string_scope.
Local Open Scope list_scope.

(** ** Python statements as a state-and-exception monad *)

(** The exception classes that matter to the two scripts.  [gaierror] is
    [socket.gaierror]; no other class listed is a subclass of it.  A class
    stands for its subclasses that are not listed: [UnicodeError] for
    UnicodeEncodeError, [OSError] for BrokenPipeError. *)
Inductive exn : Type :=
| gaierror
| herror
| OSError
| UnicodeError
| ValueError
| KeyboardInterrupt
| SystemExit.

Inductive outcome (A : Type) : Type :=
| Return (a : A)
| Raise (e : exn).
Arguments Return {A} a.
Arguments Raise {A} e.

(** The ways in which a write to the standard output fails: the text has a
    character that the encoding of the stream does not have, the reader of
    the pipe is gone, or the stream is closed. *)
Inductive write_error : Type :=
| UnicodeEncodeError
| BrokenPipeError
| ClosedFile.

(** The exception that [print] raises for a failed write.  None of them is
    [socket.gaierror]. *)
Definition raised_by_print (f : write_error) : exn :=
  match f with
  | UnicodeEncodeError => UnicodeError
  | BrokenPipeError => OSError
  | ClosedFile => ValueError
  end.

Module Py.
Section Monad.
(** [Ext] is the state of the outside world (resolver, network, terminal),
    [Ev] the type of observable events. *)
Context {Ext Ev : Type}.

Record world : Type := World { env : Ext; trace : list Ev }.

Definition M (A : Type) : Type := world -> outcome A * world.

Definition ret {A} (a : A) : M A := fun w => (Return a, w).

Definition bind {A B} (c : M A) (k : A -> M B) : M B := fun w =>
  match c w with
  | (Return a, w') => k a w'
  | (Raise e, w') => (Raise e, w')
  end.

(** [try: body / except <classes>: handler]. *)
Definition try_except {A} (body : M A) (classes : exn -> bool)
           (handler : M A) : M A := fun w =>
  match body w with
  | (Return a, w') => (Return a, w')
  | (Raise e, w') => if classes e then handler w' else (Raise e, w')
  end.

(** [for x in xs: body x]. *)
Fixpoint for_in {A} (xs : list A) (body : A -> M unit) : M unit :=
  match xs with
  | [] => ret tt
  | x :: xs' => bind (body x) (fun _ => for_in xs' body)
  end.

(** Append one event to the trace. *)
Definition emit (ev : Ev) (w : world) : world :=
  {| env := env w; trace := trace w ++ [ev] |}.
End Monad.
Arguments world : clear implicits.
Arguments M : clear implicits.
End Py.

Declare Scope py_scope.
Delimit Scope py_scope with py.
Notation "x <- c ;; k" := (Py.bind c (fun x => k))
  (at level 61, c at next level, right associativity) : py_scope.
Notation "c ;;; k" := (Py.bind c (fun _ => k))
  (at level 61, right associativity) : py_scope.

(** ** check_if_resolves.py *)

Module CheckIfResolves.
Import Py.

(** What the platform's resolution facility answers for one name: one or
    more addresses, or a failure. *)
Inductive resolution : Type :=
| Addresses (first : string) (others : list string)
| Failure (e : exn).

(** A query of the facility with its answer, or the text that a call of
    [print] wrote (one line of output, unless the text has a newline of its
    own).  A [print] whose write failed leaves no event. *)
Inductive event : Type :=
| Query (name : string) (answer : resolution)
| Print (line : string).

(** What the calls of [print] wrote to standard output, one text per call,
    oldest first. *)
Fixpoint stdout (t : list event) : list string :=
  match t with
  | [] => []
  | Print line :: t' => line :: stdout t'
  | Query _ _ :: t' => stdout t'
  end.

(** The names submitted to the resolution facility, oldest first. *)
Fixpoint queries (t : list event) : list string :=
  match t with
  | [] => []
  | Query name _ :: t' => name :: queries t'
  | Print _ :: t' => queries t'
  end.

(** What [socket.gethostbyname] hands back to the script for an answer of
    the facility: the first address as one string, or the exception. *)
Definition returned (a : resolution) : outcome string :=
  match a with
  | Addresses first _ => Return first
  | Failure e => Raise e
  end.

(** The answers of the facility as the script saw them, oldest first. *)
Fixpoint answers (t : list event) : list (outcome string) :=
  match t with
  | [] => []
  | Query _ a :: t' => returned a :: answers t'
  | Print _ :: t' => answers t'
  end.

Section Script.
(** The outside world of the script: the resolution facility behind
    [socket.gethostbyname] (argument encoding and the platform resolver)
    and the standard output.  Both may keep state of their own, so the same
    name can be answered differently on a later call. *)
Context {R : Type}.
Variable resolve : string -> R -> resolution * R.

(** A write of one line to the standard output: done, or failed. *)
Variable write : string -> R -> option write_error * R.

(** [socket.gethostbyname(name)]: one call of the facility, logged.  The
    library returns a single IPv4 address as a string, the first one of the
    host's address list ([gethostbyname_ex] is the call that returns them
    all), or raises. *)
Definition gethostbyname (name : string) : M R event string := fun w =>
  let (a, env') := resolve name (env w) in
  (returned a, {| env := env'; trace := trace w ++ [Query name a] |}).

(** [print(s)]: one line on standard output, or the exception of the write
    that failed, and then no line. *)
Definition print (s : string) : M R event unit := fun w =>
  match write s (env w) with
  | (None, env') => (Return tt, {| env := env'; trace := trace w ++ [Print s] |})
  | (Some f, env') => (Raise (raised_by_print f), {| env := env'; trace := trace w |})
  end.

(** [except socket.gaierror]. *)
Definition socket_gaierror (e : exn) : bool :=
  match e with
  | gaierror => true
  | _ => false
  end.

(** The body of the loop, lines 9-15. *)
Definition loop_body (domain : string) : M R event unit :=
  try_except
    (ip <- gethostbyname domain ;;
     print (domain ++ " resolves to " ++ ip))%py
    socket_gaierror
    (print (domain ++ " does not resolve")).

(** The script: [domains = sys.argv[1:]], then the loop. *)
Definition check_if_resolves (argv : list string) : M R event unit :=
  let domains := skipn 1 argv in
  for_in domains loop_body.

(** A run of the script as a fresh process: nothing printed and nothing
    asked yet. *)
Definition run (argv : list string) (r0 : R) : outcome unit * world R event :=
  check_if_resolves argv {| env := r0; trace := [] |}.

(** The loop alone, over a sequence of domains, from an empty trace. *)
Definition probe (domains : list string) (r0 : R)
  : outcome unit * world R event :=
  for_in domains loop_body {| env := r0; trace := [] |}.

(** One turn of the loop, from an empty trace. *)
Definition turn (domain : string) (r0 : R) : outcome unit * world R event :=
  loop_body domain {| env := r0; trace := [] |}.

(** The result [x] of a computation that started from an empty trace, seen
    from the world [w]: its events come after the ones of [w]. *)
Definition after (w : world R event) (x : outcome unit * world R event)
  : outcome unit * world R event :=
  (fst x, {| env := env (snd x); trace := trace w ++ trace (snd x) |}).
End Script.

(** *** The specification's vocabulary *)

Inductive ErrorKind : Type :=
| NameResolutionFailure
| Timeout
| InvalidInput.

(** A ResolutionResult: [address] is present only when the status is
    Resolved and [errorKind] only when it is Failed, so the status is the
    constructor. *)
Inductive ResolutionResult : Type :=
| Resolved (domain : string) (address : string)
| Failed (domain : string) (errorKind : ErrorKind).

Definition result_domain (r : ResolutionResult) : string :=
  match r with
  | Resolved d _ => d
  | Failed d _ => d
  end.

Definition result_errorKind (r : ResolutionResult) : option ErrorKind :=
  match r with
  | Resolved _ _ => None
  | Failed _ k => Some k
  end.

(** The line of the script that stands for a result (the two format strings
    of lines 12 and 15). *)
Definition render (r : ResolutionResult) : string :=
  match r with
  | Resolved d a => d ++ " resolves to " ++ a
  | Failed d _ => d ++ " does not resolve"
  end.

(** The result that the script has to report for an attempt: the [try]
    branch is Resolved, the [except socket.gaierror] branch is Failed with
    NameResolutionFailure, and any other exception has no result. *)
Definition result_of (d : string) (a : resolution) : option ResolutionResult :=
  match a with
  | Addresses first _ => Some (Resolved d first)
  | Failure gaierror => Some (Failed d NameResolutionFailure)
  | Failure _ => None
  end.

(** A result is emitted by the line that is written for it: a written line
    emits the result of the attempt made just before it, and an attempt
    after which nothing was written emits nothing.  [pending] is the result
    of the last attempt, as long as no line was written for it. *)
Fixpoint emitted (pending : option ResolutionResult) (t : list event)
  : list ResolutionResult :=
  match t with
  | [] => []
  | Query d a :: t' => emitted (result_of d a) t'
  | Print _ :: t' =>
      match pending with
      | Some r => r :: emitted None t'
      | None => emitted None t'
      end
  end.

(** The results that a trace has emitted, oldest first. *)
Definition results (t : list event) : list ResolutionResult :=
  emitted None t.

(** *** A resolver and two terminals for examples *)

(** [s.split(sep)] for a one-character separator. *)
Fixpoint split (sep : ascii) (s : string) : list string :=
  match s with
  | EmptyString => [EmptyString]
  | String c s' =>
      if Ascii.eqb c sep then EmptyString :: split sep s'
      else match split sep s' with
           | l :: ls => String c l :: ls
           | [] => [String c EmptyString]
           end
  end.

(** The check that the idna codec makes on an ASCII host name before the
    resolver sees it: every label but the last has 1 to 63 characters, the
    last one at most 63. *)
Definition idna_encodable (name : string) : bool :=
  let labels := split "."%char name in
  forallb (fun l => Nat.ltb 0 (String.length l) && Nat.ltb (String.length l) 64)
          (removelast labels)
  && Nat.ltb (String.length (last labels "")) 64.

Fixpoint lookup (name : string) (hosts : list (string * list string))
  : option (list string) :=
  match hosts with
  | [] => None
  | (n, addrs) :: hosts' =>
      if String.eqb n name then Some addrs else lookup name hosts'
  end.

Definition rotate {A} (n : nat) (l : list A) : list A :=
  skipn (n mod List.length l) l ++ firstn (n mod List.length l) l.

(** A resolver configured with a host table.  Its state counts the lookups
    made so far; the addresses of a host are handed out round-robin, names
    that are not in the table do not resolve, and a name the idna codec
    rejects raises UnicodeError before any lookup. *)
Definition stub_resolve (hosts : list (string * list string))
           (name : string) (n : nat) : resolution * nat :=
  if idna_encodable name then
    match lookup name hosts with
    | Some addrs =>
        match rotate n addrs with
        | a :: others => (Addresses a others, S n)
        | [] => (Failure gaierror, S n)
        end
    | None => (Failure gaierror, S n)
    end
  else (Failure UnicodeError, n).

Definition hosts : list (string * list string) :=
  [("", ["0.0.0.0"]);
   ("example.com", ["93.184.216.34"]);
   ("multi.example", ["192.0.2.1"; "192.0.2.2"; "192.0.2.3"])].


(** A standard output that takes every text (UTF-8). *)
Definition terminal_utf8 {S : Type} (s : string) (st : S)
  : option write_error * S :=
  (None, st).

(** A standard output with the ASCII encoding: a text with a byte above 127
    cannot be written. *)
Definition terminal_ascii {S : Type} (s : string) (st : S)
  : option write_error * S :=
  if forallb (fun c => Nat.ltb (nat_of_ascii c) 128) (list_ascii_of_string s)
  then (None, st)
  else (Some UnicodeEncodeError, st).

(** A label of 64 characters, one more than the idna codec accepts. *)
Definition long_label : string :=
  "aaaaaaaaaaaaaaaaaaaaaaaaaaaaaaaaaaaaaaaaaaaaaaaaaaaaaaaaaaaaaaaa".

(** A host name with a letter outside ASCII, u with diaeresis, in UTF-8. *)
Definition buecher : string :=
  String "b" (String "195" (String "188" "cher.example")).

Definition prog : string := "check_if_resolves.py".

End CheckIfResolves.

(** ** DNSDumpster.py *)

Module DNSDumpster.
Import Py.

Section Script.
(** [Net] is the state of the network, of the remote service and of the
    standard output, [Res] the type of what the API's [search] returns,
    [str] its conversion to text by [print]. *)
Context {Net Res : Type}.
Variable str : Res -> string.

(** [DNSDumpsterAPI().search(domain)]: a fresh client and one search.  The
    argument is a Python value, a string or [None]. *)
Variable search : option string -> Net -> outcome Res * Net.

(** [ArgumentParser.parse_args()] with the one option [-d]: the value of
    [args.domain] ([None] when the option is absent), or the exit of the
    parser on a command line it rejects. *)
Variable parse_args : list string -> outcome (option string).

(** A write of one line to the standard output: done, or failed. *)
Variable write : string -> Net -> option write_error * Net.

Inductive event : Type :=
| Search (domain : option string) (answer : outcome Res)
| Print (line : string).

Definition DNSDumpsterAPI_search (domain : option string) : M Net event Res :=
  fun w =>
    let (a, net') := search domain (env w) in
    (a, {| env := net'; trace := trace w ++ [Search domain a] |}).

(** [print(s)]: one line on standard output, or the exception of the write
    that failed, and then no line. *)
Definition print (s : string) : M Net event unit := fun w =>
  match write s (env w) with
  | (None, net') => (Return tt, {| env := net'; trace := trace w ++ [Print s] |})
  | (Some f, net') => (Raise (raised_by_print f), {| env := net'; trace := trace w |})
  end.

Definition fetch_results (domain : option string) : M Net event Res :=
  (results <- DNSDumpsterAPI_search domain ;;
   ret results)%py.

Definition main (argv : list string) : M Net event unit :=
  (args_domain <- (fun w => (parse_args argv, w)) ;;
   results <- fetch_results args_domain ;;
   print (str results))%py.

(** The arguments of the searches made, oldest first. *)
Fixpoint searches (t : list event) : list (option string) :=
  match t with
  | [] => []
  | Search domain _ :: t' => domain :: searches t'
  | Print _ :: t' => searches t'
  end.

(** The lines that the script's [print] wrote, oldest first. *)
Fixpoint printed (t : list event) : list string :=
  match t with
  | [] => []
  | Search _ _ :: t' => printed t'
  | Print line :: t' => line :: printed t'
  end.
End Script.

(** *** A service for examples *)

Definition stub_str (records : list string) : string :=
  "[" ++ String.concat ", " records ++ "]".

Definition stub_search (domain : option string) (calls : nat)
  : outcome (list string) * nat :=
  match domain with
  | Some d =>
      if String.eqb d "example.com"
      then (Return ["93.184.216.34"; "ns.example.com"], S calls)
      else (Return [], S calls)
  | None => (Raise ValueError, S calls)
  end.

Definition stub_parse_args (argv : list string) : outcome (option string) :=
  match argv with
  | [_] => Return None
  | [_; flag; d] => if String.eqb flag "-d" then Return (Some d) else Raise SystemExit
  | _ => Raise SystemExit
  end.

(** A standard output that takes every text. *)
Definition stub_write (s : string) (calls : nat) : option write_error * nat :=
  (None, calls).

(** A standard output whose reader is gone. *)
Definition closed_pipe (s : string) (calls : nat) : option write_error * nat :=
  (Some BrokenPipeError, calls).

End DNSDumpster.

(** ** Facts about check_if_resolves.py *)

Module CheckIfResolvesFacts.
Import Py CheckIfResolves.

(** The observations are homomorphisms of traces. *)
Lemma stdout_app t1 t2 : stdout (t1 ++ t2) = stdout t1 ++ stdout t2.
Proof.
  induction t1 as [|[name a|line] t1 IH]; simpl; [reflexivity|assumption|].
  now rewrite IH.
Qed.

Lemma queries_app t1 t2 : queries (t1 ++ t2) = queries t1 ++ queries t2.
Proof.
  induction t1 as [|[name a|line] t1 IH]; simpl; [reflexivity| |assumption].
  now rewrite IH.
Qed.

Lemma answers_app t1 t2 : answers (t1 ++ t2) = answers t1 ++ answers t2.
Proof.
  induction t1 as [|[name a|line] t1 IH]; simpl; [reflexivity| |assumption].
  now rewrite IH.
Qed.

(** A query starts afresh: what was emitted before it does not depend on
    it, and what is emitted from it on does not depend on what came
    before. *)
Lemma emitted_app_query p t d a t2 :
  emitted p (t ++ Query d a :: t2)
  = emitted p t ++ emitted None (Query d a :: t2).
Proof.
  revert p; induction t as [|[name b|line] t IH]; intros p; cbn [app emitted].
  - reflexivity.
  - apply IH.
  - destruct p; cbn [app]; now rewrite IH.
Qed.

Lemma results_query_print d a line t :
  results (Query d a :: Print line :: t)
  = match result_of d a with
    | Some r => r :: results t
    | None => results t
    end.
Proof. unfold results; cbn [emitted]. now destruct (result_of d a). Qed.

Lemma results_query_end d a : results [Query d a] = [].
Proof. reflexivity. Qed.

Lemma results_app_query t d a t2 :
  results (t ++ Query d a :: t2) = results t ++ results (Query d a :: t2).
Proof. apply emitted_app_query. Qed.

Lemma print_never_raises_gaierror f : socket_gaierror (raised_by_print f) = false.
Proof. now destruct f. Qed.

Section Loop.
Context {R : Type}.
Variable resolve : string -> R -> resolution * R.
Variable write : string -> R -> option write_error * R.

Local Abbreviation body := (loop_body resolve write).

(** One turn of the loop, branch by branch: the attempt, then the write of
    the line when the attempt returned or raised socket.gaierror.  A write
    that fails ends the turn with its exception, in the [try] block as in
    the handler. *)
Lemma loop_body_step (d : string) (w : world R event) :
  body d w =
  match resolve d (env w) with
  | (Addresses ip others, r1) =>
      match write (d ++ " resolves to " ++ ip) r1 with
      | (None, r2) =>
          (Return tt,
           {| env := r2;
              trace := trace w ++ [Query d (Addresses ip others);
                                   Print (d ++ " resolves to " ++ ip)] |})
      | (Some f, r2) =>
          (Raise (raised_by_print f),
           {| env := r2; trace := trace w ++ [Query d (Addresses ip others)] |})
      end
  | (Failure e, r1) =>
      if socket_gaierror e
      then match write (d ++ " does not resolve") r1 with
           | (None, r2) =>
               (Return tt,
                {| env := r2;
                   trace := trace w ++ [Query d (Failure e);
                                        Print (d ++ " does not resolve")] |})
           | (Some f, r2) =>
               (Raise (raised_by_print f),
                {| env := r2; trace := trace w ++ [Query d (Failure e)] |})
           end
      else (Raise e, {| env := r1; trace := trace w ++ [Query d (Failure e)] |})
  end.
Proof.
  unfold loop_body, try_except, bind, gethostbyname, print.
  destruct (resolve d (env w)) as [[ip others|e] r1]; cbn [returned env trace].
  - destruct (write _ r1) as [[f|] r2].
    + now rewrite print_never_raises_gaierror.
    + now rewrite <- app_assoc.
  - destruct (socket_gaierror e); [|reflexivity].
    cbn [env trace]. destruct (write _ r1) as [[f|] r2]; [reflexivity|].
    now rewrite <- app_assoc.
Qed.

(** The turn from an empty trace. *)
Lemma turn_step (d : string) (r : R) :
  turn resolve write d r =
  match resolve d r with
  | (Addresses ip others, r1) =>
      match write (d ++ " resolves to " ++ ip) r1 with
      | (None, r2) =>
          (Return tt,
           {| env := r2;
              trace := [Query d (Addresses ip others);
                        Print (d ++ " resolves to " ++ ip)] |})
      | (Some f, r2) =>
          (Raise (raised_by_print f),
           {| env := r2; trace := [Query d (Addresses ip others)] |})
      end
  | (Failure e, r1) =>
      if socket_gaierror e
      then match write (d ++ " does not resolve") r1 with
           | (None, r2) =>
               (Return tt,
                {| env := r2;
                   trace := [Query d (Failure e);
                             Print (d ++ " does not resolve")] |})
           | (Some f, r2) =>
               (Raise (raised_by_print f),
                {| env := r2; trace := [Query d (Failure e)] |})
           end
      else (Raise e, {| env := r1; trace := [Query d (Failure e)] |})
  end.
Proof. unfold turn. now rewrite loop_body_step. Qed.

(** A turn only appends to the trace. *)
Lemma loop_body_frame (d : string) (w : world R event) :
  body d w = after w (turn resolve write d (env w)).
Proof.
  rewrite loop_body_step, turn_step. unfold after.
  destruct (resolve d (env w)) as [[ip others|e] r1].
  - now destruct (write _ r1) as [[f|] r2].
  - destruct (socket_gaierror e); [|reflexivity].
    now destruct (write _ r1) as [[f|] r2].
Qed.

(** The loop only appends to the trace: what it does from [w] is what it
    does from the empty trace, after the events of [w]. *)
Lemma for_in_frame (ds : list string) (w : world R event) :
  for_in ds body w = after w (probe resolve write ds (env w)).
Proof.
  unfold probe, after.
  revert w; induction ds as [|d ds IH]; intros w; cbn [for_in].
  - unfold ret; cbn [fst snd env trace]. rewrite app_nil_r. now destruct w.
  - unfold bind. rewrite (loop_body_frame d w).
    rewrite (loop_body_frame d {| env := env w; trace := [] |}).
    unfold after; cbn [env trace app].
    destruct (turn resolve write d (env w)) as [[[]|e] w1]; cbn [fst snd].
    + rewrite IH. rewrite (IH {| env := _; trace := trace w1 |}).
      cbn [env trace fst snd]. now rewrite <- app_assoc.
    + reflexivity.
Qed.

(** The first turn of the loop, then the rest. *)
Lemma probe_cons (d : string) (ds : list string) (r : R) :
  probe resolve write (d :: ds) r =
  match turn resolve write d r with
  | (Return _, w1) => after w1 (probe resolve write ds (env w1))
  | (Raise e, w1) => (Raise e, w1)
  end.
Proof.
  unfold probe at 1; cbn [for_in]. unfold bind. fold (turn resolve write d r).
  destruct (turn resolve write d r) as [[[]|e] w1]; [|reflexivity].
  apply for_in_frame.
Qed.

(** The loop over [pre ++ post] goes through [pre], and through [post] when
    [pre] raised nothing. *)
Lemma for_in_app (pre post : list string) (w : world R event) :
  for_in (pre ++ post) body w =
  match for_in pre body w with
  | (Return _, w1) => for_in post body w1
  | (Raise e, w1) => (Raise e, w1)
  end.
Proof.
  revert w; induction pre as [|d pre IH]; intros w; simpl; [reflexivity|].
  unfold bind. destruct (body d w) as [[[]|e] w1]; [apply IH|reflexivity].
Qed.

End Loop.

(** Case analysis on the first turn of [probe (d :: ds) r]: the answer of
    the facility, and the write of the line when there is one to write. *)
Ltac first_turn resolve write d r :=
  rewrite (probe_cons resolve write d), (turn_step resolve write d r);
  let a := fresh "a" in
  let r1 := fresh "r1" in
  let e := fresh "e" in
  destruct (resolve d r) as [a r1];
  destruct a as [? ?|e]; [|destruct e];
  cbn [socket_gaierror];
  try (match goal with
       | |- context [write ?l r1] =>
           let f := fresh "f" in
           let r2 := fresh "r2" in
           destruct (write l r1) as [[f|] r2]
       end);
  unfold after;
  cbn [fst snd env trace app stdout queries answers returned map
       result_domain render firstn List.length];
  rewrite ?results_query_print, ?results_query_end;
  cbn [result_of map result_domain render firstn List.length].

Section Shape.
Context {R : Type}.
Variable resolve : string -> R -> resolution * R.
Variable write : string -> R -> option write_error * R.

(** The trace of the loop is empty or starts with a query. *)
Lemma probe_trace_head (ds : list string) (r : R) :
  trace (snd (probe resolve write ds r)) = []
  \/ exists d a t, trace (snd (probe resolve write ds r)) = Query d a :: t.
Proof.
  destruct ds as [|d ds]; [now left|right].
  first_turn resolve write d r; eauto.
Qed.

(** The results emitted by the events of [w] do not depend on what the loop
    does after them. *)
Lemma results_after (w : world R event) (ds : list string) (r : R) :
  results (trace w ++ trace (snd (probe resolve write ds r)))
  = results (trace w) ++ results (trace (snd (probe resolve write ds r))).
Proof.
  destruct (probe_trace_head ds r) as [->|(d & a & t & ->)].
  - now rewrite !app_nil_r.
  - apply results_app_query.
Qed.

(** Every line printed is the line of a result, in the same order. *)
Lemma probe_stdout (ds : list string) (r : R) :
  stdout (trace (snd (probe resolve write ds r)))
  = map render (results (trace (snd (probe resolve write ds r)))).
Proof.
  revert r; induction ds as [|d ds IH]; intros r; [reflexivity|].
  first_turn resolve write d r; try reflexivity; now rewrite IH.
Qed.

(** The results are about the first domains, in the order of the input. *)
Lemma probe_results_domains (ds : list string) (r : R) :
  map result_domain (results (trace (snd (probe resolve write ds r))))
  = firstn (List.length (results (trace (snd (probe resolve write ds r))))) ds.
Proof.
  revert r; induction ds as [|d ds IH]; intros r; [reflexivity|].
  first_turn resolve write d r; try reflexivity; now rewrite <- IH.
Qed.

(** When the loop runs to its end, every domain was submitted and has its
    result. *)
Lemma probe_complete (ds : list string) (r : R) :
  fst (probe resolve write ds r) = Return tt ->
  queries (trace (snd (probe resolve write ds r))) = ds
  /\ map result_domain (results (trace (snd (probe resolve write ds r)))) = ds.
Proof.
  revert r; induction ds as [|d ds IH]; intros r; [now split|].
  first_turn resolve write d r; try discriminate;
    intros H; destruct (IH _ H) as [Hq Hr]; now rewrite Hq, Hr.
Qed.

Lemma run_probe (argv : list string) (r0 : R) :
  run resolve write argv r0 = probe resolve write (skipn 1 argv) r0.
Proof. reflexivity. Qed.

(** The turn of a domain that the loop reaches after [pre]. *)
Lemma reached (p : string) (pre post : list string) (d : string) (r0 : R)
      (w1 : world R event) :
  run resolve write (p :: pre) r0 = (Return tt, w1) ->
  run resolve write (p :: pre ++ d :: post) r0
  = match loop_body resolve write d w1 with
    | (Return _, w2) => for_in post (loop_body resolve write) w2
    | (Raise e, w2) => (Raise e, w2)
    end.
Proof.
  unfold run, check_if_resolves; cbn [skipn]; intros Hpre.
  rewrite for_in_app, Hpre. reflexivity.
Qed.

Lemma reached_results (p : string) (pre : list string) (r0 : R)
      (w1 : world R event) :
  run resolve write (p :: pre) r0 = (Return tt, w1) ->
  List.length (results (trace w1)) = List.length pre
  /\ List.length (stdout (trace w1)) = List.length pre
  /\ queries (trace w1) = pre.
Proof.
  rewrite run_probe; cbn [skipn]; intros Hpre.
  pose proof (probe_complete pre r0) as Hc.
  pose proof (probe_stdout pre r0) as Hs.
  rewrite Hpre in Hc, Hs; cbn [fst snd] in Hc, Hs.
  destruct (Hc eq_refl) as [Hq Hr].
  rewrite Hs, length_map.
  assert (Hl : List.length (results (trace w1)) = List.length pre)
    by (rewrite <- (length_map result_domain); now rewrite Hr).
  auto.
Qed.
End Shape.

Lemma results_app_probe {R : Type} (resolve : string -> R -> resolution * R)
      (write : string -> R -> option write_error * R)
      (t : list event) (ds : list string) (r : R) :
  results (t ++ trace (snd (probe resolve write ds r)))
  = results t ++ results (trace (snd (probe resolve write ds r))).
Proof.
  destruct (probe_trace_head resolve write ds r) as [->|(d & a & t' & ->)].
  - now rewrite !app_nil_r.
  - apply results_app_query.
Qed.

Section Claims.
Context {R : Type}.
Variable resolve : string -> R -> resolution * R.
Variable write : string -> R -> option write_error * R.

(** C3: for every domain that the loop reaches and whose resolution
    succeeds, the result emitted for it is Resolved, carries the first
    address returned by the facility (one address, whatever the others
    are) and the domain as it was given.  The only line the script writes
    for the domain is "<domain> resolves to <address>": when the write is
    done, that line and that result are the ones at the index of the domain
    and the loop goes on; when the write fails, no result is emitted for
    the domain and the script ends with the exception of the [print]. *)
Theorem resolved_result_has_first_address
        (p : string) (pre post : list string) (d : string) (r0 r2 : R)
        (w1 : world R event) (ip : string) (others : list string) :
  run resolve write (p :: pre) r0 = (Return tt, w1) ->
  resolve d (env w1) = (Addresses ip others, r2) ->
  let x := run resolve write (p :: pre ++ d :: post) r0 in
  match write (d ++ " resolves to " ++ ip) r2 with
  | (None, r3) =>
      x = for_in post (loop_body resolve write)
            {| env := r3;
               trace := trace w1 ++ [Query d (Addresses ip others);
                                     Print (d ++ " resolves to " ++ ip)] |}
      /\ nth_error (results (trace (snd x))) (List.length pre)
         = Some (Resolved d ip)
      /\ nth_error (stdout (trace (snd x))) (List.length pre)
         = Some (d ++ " resolves to " ++ ip)%string
  | (Some f, r3) =>
      x = (Raise (raised_by_print f),
           {| env := r3; trace := trace w1 ++ [Query d (Addresses ip others)] |})
      /\ nth_error (results (trace (snd x))) (List.length pre) = None
      /\ nth_error (stdout (trace (snd x))) (List.length pre) = None
  end.
Proof.
  intros Hpre Hd; cbn zeta.
  destruct (reached_results resolve write _ _ _ _ Hpre) as (Hr & Hs & _).
  rewrite (reached resolve write _ _ _ _ _ _ Hpre), loop_body_step, Hd.
  destruct (write _ r2) as [[f|] r3]; (split; [reflexivity|]).
  - cbn [snd trace].
    rewrite results_app_query, results_query_end, stdout_app, !app_nil_r.
    split; apply nth_error_None; lia.
  - rewrite for_in_frame; unfold after; cbn [snd trace env].
    rewrite results_app_probe, results_app_query, results_query_print.
    rewrite !stdout_app, <- !app_assoc.
    cbn [result_of stdout app].
    split; rewrite nth_error_app2 by lia;
      rewrite ?Hr, ?Hs, Nat.sub_diag; reflexivity.
Qed.

(** The k-th result is about the k-th domain and is printed as the k-th
    line. *)
Lemma result_at (argv : list string) (r0 : R) (k : nat) (r : ResolutionResult) :
  nth_error (results (trace (snd (run resolve write argv r0)))) k = Some r ->
  nth_error (skipn 1 argv) k = Some (result_domain r)
  /\ nth_error (stdout (trace (snd (run resolve write argv r0)))) k
     = Some (render r).
Proof.
  rewrite run_probe; intros Hk; split.
  - pose proof (probe_results_domains resolve write (skipn 1 argv) r0) as Hd.
    apply (f_equal (fun l => nth_error l k)) in Hd.
    rewrite nth_error_map, Hk, nth_error_firstn in Hd; cbn [option_map] in Hd.
    destruct (Nat.ltb_spec k
                (List.length
                   (results (trace (snd (probe resolve write (skipn 1 argv) r0))))))
      as [_|Hge]; [now symmetry|].
    apply nth_error_None in Hge; congruence.
  - rewrite probe_stdout. now apply map_nth_error.
Qed.

(** C4: the script is sequential, and its results appear strictly in the
    order of the input: [stdout] and [results] list what was emitted,
    oldest first, and whenever the result of index j has been emitted, so
    has, at an earlier position, the result of every index i < j; the
    result at position i is about the i-th domain and is the i-th line. *)
Theorem results_in_input_order (argv : list string) (r0 : R)
        (i j : nat) (rj : ResolutionResult) :
  i < j ->
  nth_error (results (trace (snd (run resolve write argv r0)))) j = Some rj ->
  exists ri,
    nth_error (results (trace (snd (run resolve write argv r0)))) i = Some ri
    /\ nth_error (skipn 1 argv) i = Some (result_domain ri)
    /\ nth_error (skipn 1 argv) j = Some (result_domain rj)
    /\ nth_error (stdout (trace (snd (run resolve write argv r0)))) i
       = Some (render ri)
    /\ nth_error (stdout (trace (snd (run resolve write argv r0)))) j
       = Some (render rj).
Proof.
  intros Hij Hj.
  assert (Hlen : j < List.length
                       (results (trace (snd (run resolve write argv r0)))))
    by (apply nth_error_Some; congruence).
  destruct (nth_error (results (trace (snd (run resolve write argv r0)))) i)
    as [ri|] eqn:Hi.
  - exists ri. destruct (result_at _ _ _ _ Hi), (result_at _ _ _ _ Hj). auto.
  - apply nth_error_None in Hi. lia.
Qed.

(** C5: with no domain on the command line the script prints nothing,
    asks the resolution facility nothing, leaves it as it was, and ends
    without an error. *)
Theorem empty_input_no_output_no_query (p : string) (r0 : R) :
  run resolve write [p] r0 = (Return tt, {| env := r0; trace := [] |})
  /\ stdout (trace (snd (run resolve write [p] r0))) = []
  /\ results (trace (snd (run resolve write [p] r0))) = []
  /\ queries (trace (snd (run resolve write [p] r0))) = []
  /\ run resolve write [] r0 = (Return tt, {| env := r0; trace := [] |})
  /\ probe resolve write [] r0 = (Return tt, {| env := r0; trace := [] |}).
Proof. repeat split. Qed.

(** C9: only socket.gaierror is caught.  When the loop reaches a domain
    and the attempt raises any other exception, the exception leaves the
    loop: the script ends with it, the domain has no result, and none of
    the remaining domains is submitted or reported, so there are fewer
    results than domains. *)
Theorem other_exception_aborts_the_batch
        (p : string) (pre post : list string) (d : string) (r0 r2 : R)
        (w1 : world R event) (e : exn) :
  run resolve write (p :: pre) r0 = (Return tt, w1) ->
  resolve d (env w1) = (Failure e, r2) ->
  e <> gaierror ->
  let x := run resolve write (p :: pre ++ d :: post) r0 in
  x = (Raise e, {| env := r2; trace := trace w1 ++ [Query d (Failure e)] |})
  /\ queries (trace (snd x)) = pre ++ [d]
  /\ List.length (results (trace (snd x))) = List.length pre
  /\ List.length (stdout (trace (snd x))) = List.length pre
  /\ List.length (results (trace (snd x))) < List.length (pre ++ d :: post).
Proof.
  intros Hpre Hd He; cbn zeta.
  destruct (reached_results resolve write _ _ _ _ Hpre) as (Hr & Hs & Hq).
  rewrite (reached resolve write _ _ _ _ _ _ Hpre), loop_body_step, Hd.
  assert (Hc : socket_gaierror e = false) by (destruct e; simpl; congruence).
  rewrite Hc; cbn [snd trace].
  rewrite queries_app, results_app_query, results_query_end, stdout_app.
  rewrite !length_app, Hq, Hr, Hs.
  cbn [queries stdout List.length].
  repeat split; lia.
Qed.
End Claims.

Section Determinism.
(** Two outside worlds, each with a state of its own kind. *)
Context {R1 R2 : Type}.
Variable resolve1 : string -> R1 -> resolution * R1.
Variable write1 : string -> R1 -> option write_error * R1.
Variable resolve2 : string -> R2 -> resolution * R2.
Variable write2 : string -> R2 -> option write_error * R2.




End Determinism.

(** *** The script on concrete command lines *)

(** Scenarios 5 and 6 of the specification, with the lines of the script. *)
Example scenario_resolves :
  run (stub_resolve hosts) terminal_utf8 [prog; "example.com"] 0
  = (Return tt,
     {| env := 1;
        trace := [Query "example.com" (Addresses "93.184.216.34" []);
                  Print "example.com resolves to 93.184.216.34"] |}).
Proof. reflexivity. Qed.

Example scenario_does_not_resolve :
  results (trace (snd (run (stub_resolve hosts) terminal_utf8
                           [prog; "this-domain-does-not-exist-xyz123.invalid"] 0)))
  = [Failed "this-domain-does-not-exist-xyz123.invalid" NameResolutionFailure]
  /\ stdout (trace (snd (run (stub_resolve hosts) terminal_utf8
                             [prog; "this-domain-does-not-exist-xyz123.invalid"] 0)))
     = ["this-domain-does-not-exist-xyz123.invalid does not resolve"].
Proof. split; reflexivity. Qed.

(** The empty string is submitted like any other. *)
Example empty_string_is_submitted :
  queries (trace (snd (run (stub_resolve hosts) terminal_utf8 [prog; ""] 0))) = [""].
Proof. reflexivity. Qed.

(** A line that the standard output cannot encode ends the script, in the
    handler of line 15 as well. *)
Example print_failure_ends_the_script :
  run (stub_resolve hosts) terminal_ascii [prog; "example.com"; buecher; "example.com"] 0
  = (Raise UnicodeError,
     {| env := 2;
        trace := [Query "example.com" (Addresses "93.184.216.34" []);
                  Print "example.com resolves to 93.184.216.34";
                  Query buecher (Failure gaierror)] |}).
Proof. reflexivity. Qed.

(** C1, the defect: the comments of lines 7 and 14 announce a check of each
    domain and a message for each that does not resolve, but the [except]
    clause of line 13 names socket.gaierror alone.  The second of these
    three domains has a label of 64 characters, the attempt raises
    UnicodeError, the exception leaves the loop, and one line is printed
    for three domains. *)
Lemma fewer_results_than_domains :
  let argv := [prog; "example.com"; (long_label ++ ".com")%string; "example.com"] in
  let x := run (stub_resolve hosts) terminal_utf8 argv 0 in
  skipn 1 argv <> []
  /\ fst x = Raise UnicodeError
  /\ stdout (trace (snd x)) = ["example.com resolves to 93.184.216.34"]
  /\ List.length (results (trace (snd x))) <> List.length (skipn 1 argv)
  /\ List.length (stdout (trace (snd x))) <> List.length (skipn 1 argv).
Proof. cbv zeta; repeat split; vm_compute; discriminate. Qed.

(** C2, the defect (the one of C1): the attempt on [".."] fails with
    UnicodeError, which the [except] clause of line 13 does not name: the
    script ends with the exception, no Failed result is recorded for the
    domain, no line is printed for it, and the next domain is never
    submitted. *)
Lemma failure_aborts_the_batch :
  let x := run (stub_resolve hosts) terminal_utf8 [prog; ".."; "example.com"] 0 in
  answers (trace (snd x)) = [Raise UnicodeError]
  /\ fst x = Raise UnicodeError
  /\ results (trace (snd x)) = []
  /\ stdout (trace (snd x)) = []
  /\ queries (trace (snd x)) = [".."].
Proof. cbv zeta; repeat split. Qed.

Lemma resolved_result_witness :
  run (stub_resolve hosts) terminal_utf8 [prog; "nope.invalid"] 0
  = (Return tt,
     {| env := 1;
        trace := [Query "nope.invalid" (Failure gaierror);
                  Print "nope.invalid does not resolve"] |})
  /\ stub_resolve hosts "multi.example" 1
     = (Addresses "192.0.2.2" ["192.0.2.3"; "192.0.2.1"], 2)
  /\ nth_error
       (stdout (trace (snd (run (stub_resolve hosts) terminal_utf8
                                [prog; "nope.invalid"; "multi.example"; "example.com"] 0))))
       1
     = Some "multi.example resolves to 192.0.2.2".
Proof.
  split; [reflexivity|]. split; [reflexivity|].
  exact (proj2 (proj2
    (resolved_result_has_first_address
       (stub_resolve hosts) terminal_utf8 prog ["nope.invalid"] ["example.com"]
       "multi.example" 0 2
       {| env := 1;
          trace := [Query "nope.invalid" (Failure gaierror);
                    Print "nope.invalid does not resolve"] |}
       "192.0.2.2" ["192.0.2.3"; "192.0.2.1"] eq_refl eq_refl))).
Defined.

Lemma results_in_input_order_witness :
  0 < 2
  /\ nth_error
       (results (trace (snd (run (stub_resolve hosts) terminal_utf8
                                 [prog; "example.com"; "nope.invalid"; "multi.example"] 0))))
       2
     = Some (Resolved "multi.example" "192.0.2.3")
  /\ exists ri,
      nth_error
        (results (trace (snd (run (stub_resolve hosts) terminal_utf8
                                  [prog; "example.com"; "nope.invalid"; "multi.example"] 0))))
        0 = Some ri
      /\ nth_error [ "example.com"; "nope.invalid"; "multi.example"] 0
         = Some (result_domain ri)
      /\ nth_error [ "example.com"; "nope.invalid"; "multi.example"] 2
         = Some "multi.example"
      /\ nth_error
           (stdout (trace (snd (run (stub_resolve hosts) terminal_utf8
                                    [prog; "example.com"; "nope.invalid"; "multi.example"] 0))))
           0 = Some (render ri)
      /\ nth_error
           (stdout (trace (snd (run (stub_resolve hosts) terminal_utf8
                                    [prog; "example.com"; "nope.invalid"; "multi.example"] 0))))
           2 = Some "multi.example resolves to 192.0.2.3".
Proof.
  split; [lia|]. split; [reflexivity|].
  apply (results_in_input_order
           (stub_resolve hosts) terminal_utf8
           [prog; "example.com"; "nope.invalid"; "multi.example"] 0 0 2
           (Resolved "multi.example" "192.0.2.3")); [lia|reflexivity].
Defined.

(** C6, the defect (the one of C1): of the two equal entries
    ["multi.example"] only the first is submitted, because the entry
    between them has an empty label, its attempt raises UnicodeError, and
    the exception leaves the loop; the last entry gets no attempt. *)
Lemma entry_without_attempt :
  let argv := [prog; "multi.example"; ".example.com"; "multi.example"] in
  let x := run (stub_resolve hosts) terminal_utf8 argv 0 in
  fst x = Raise UnicodeError
  /\ queries (trace (snd x)) = ["multi.example"; ".example.com"]
  /\ queries (trace (snd x)) <> skipn 1 argv
  /\ count_occ string_dec (skipn 1 argv) "multi.example" = 2
  /\ count_occ string_dec (queries (trace (snd x))) "multi.example" = 1.
Proof. cbv zeta; repeat split; vm_compute; discriminate. Qed.

(** C7, the defect (the one of C1): ["a..b"] has an empty label; it is
    submitted as it is, the attempt fails with UnicodeError, and the
    failure is not turned into a Failed result with NameResolutionFailure:
    no result, no line, and the script ends with the exception. *)
Lemma malformed_name_not_a_resolution_failure :
  let x := run (stub_resolve hosts) terminal_utf8 [prog; "a..b"] 0 in
  queries (trace (snd x)) = ["a..b"]
  /\ answers (trace (snd x)) = [Raise UnicodeError]
  /\ results (trace (snd x)) = []
  /\ stdout (trace (snd x)) = []
  /\ fst x = Raise UnicodeError.
Proof. cbv zeta; repeat split. Qed.

Lemma other_exception_aborts_witness :
  run (stub_resolve hosts) terminal_utf8 [prog; "example.com"] 0
  = (Return tt,
     {| env := 1;
        trace := [Query "example.com" (Addresses "93.184.216.34" []);
                  Print "example.com resolves to 93.184.216.34"] |})
  /\ stub_resolve hosts (long_label ++ ".com") 1 = (Failure UnicodeError, 1)
  /\ UnicodeError <> gaierror
  /\ run (stub_resolve hosts) terminal_utf8
         [prog; "example.com"; (long_label ++ ".com")%string; "multi.example"] 0
     = (Raise UnicodeError,
        {| env := 1;
           trace := [Query "example.com" (Addresses "93.184.216.34" []);
                     Print "example.com resolves to 93.184.216.34";
                     Query (long_label ++ ".com") (Failure UnicodeError)] |}).
Proof.
  split; [reflexivity|]. split; [reflexivity|]. split; [discriminate|].
  apply (other_exception_aborts_the_batch
           (stub_resolve hosts) terminal_utf8 prog ["example.com"] ["multi.example"]
           (long_label ++ ".com")%string 0 1
           {| env := 1;
              trace := [Query "example.com" (Addresses "93.184.216.34" []);
                        Print "example.com resolves to 93.184.216.34"] |}
           UnicodeError); [reflexivity|reflexivity|discriminate].
Defined.



(** *** How a run ends, and what it has printed by then *)

Section Endings.
Context {R : Type}.
Variable resolve : string -> R -> resolution * R.
Variable write : string -> R -> option write_error * R.

(** X1: the script never ends with socket.gaierror: whatever the facility
    answers, that exception does not leave the loop. *)
Theorem never_ends_with_gaierror (argv : list string) (r0 : R) :
  fst (run resolve write argv r0) <> Raise gaierror.
Proof.
  rewrite run_probe. generalize (skipn 1 argv) as ds. intros ds.
  revert r0; induction ds as [|d ds IH]; intros r; [discriminate|].
  first_turn resolve write d r; try discriminate; try apply IH;
    destruct f; discriminate.
Qed.

(** X2: the script ends normally exactly when it has written one line for
    every domain of the command line. *)
Theorem completes_iff_one_line_per_domain (argv : list string) (r0 : R) :
  fst (run resolve write argv r0) = Return tt
  <-> List.length (stdout (trace (snd (run resolve write argv r0))))
      = List.length (skipn 1 argv).
Proof.
  rewrite run_probe. generalize (skipn 1 argv) as ds. intros ds.
  revert r0; induction ds as [|d ds IH]; intros r; [now split|].
  first_turn resolve write d r;
    try (split; discriminate);
    rewrite IH; (split; intros H; [now rewrite H|now injection H]).
Qed.

(** X3: when the script ends with an exception, that exception was raised
    by the last attempt made or by the [print] that followed it, after an
    attempt that returned or raised socket.gaierror; the attempts before
    the last returned or raised socket.gaierror, and each of them has its
    line: there are as many lines as earlier attempts, and none for the
    last domain. *)
Theorem ends_with_last_answer_or_its_print (argv : list string) (r0 : R) (e : exn) :
  fst (run resolve write argv r0) = Raise e ->
  exists earlier last,
    answers (trace (snd (run resolve write argv r0))) = earlier ++ [last]
    /\ (forall e', In (Raise e') earlier -> e' = gaierror)
    /\ List.length (stdout (trace (snd (run resolve write argv r0))))
       = List.length earlier
    /\ (last = Raise e
        \/ ((forall e', last = Raise e' -> e' = gaierror)
            /\ exists f, e = raised_by_print f)).
Proof.
  rewrite run_probe. generalize (skipn 1 argv) as ds. intros ds.
  revert r0; induction ds as [|d ds IH]; intros r; [discriminate|].
  first_turn resolve write d r; intros H;
    try (injection H as <-;
         eexists [], _; repeat split; [intros e' []|];
         first [ now left
               | right; split; [intros e' He'; congruence|eauto] ]).
  - destruct (IH _ H) as (earlier & last & Ha & Hc & Hl & Hlast).
    exists (Return first :: earlier), last. rewrite Ha, Hl.
    repeat split; [|exact Hlast].
    intros e' [He|He]; [discriminate|now apply Hc].
  - destruct (IH _ H) as (earlier & last & Ha & Hc & Hl & Hlast).
    exists (Raise gaierror :: earlier), last. rewrite Ha, Hl.
    repeat split; [|exact Hlast].
    intros e' [He|He]; [congruence|now apply Hc].
Qed.

(** X4: in every run, ended or aborted, there is one written line per
    emitted result, at most one attempt that has no line (the one on which
    the run was aborted), one answer per attempt, and never more attempts
    than domains. *)
Theorem at_most_one_attempt_without_line (argv : list string) (r0 : R) :
  let t := trace (snd (run resolve write argv r0)) in
  List.length (stdout t) = List.length (results t)
  /\ List.length (stdout t) <= List.length (queries t)
  /\ List.length (queries t) <= S (List.length (stdout t))
  /\ List.length (answers t) = List.length (queries t)
  /\ List.length (queries t) <= List.length (skipn 1 argv).
Proof.
  rewrite run_probe. generalize (skipn 1 argv) as ds. intros ds; cbn zeta.
  revert r0; induction ds as [|d ds IH]; intros r.
  - cbn. repeat split; lia.
  - first_turn resolve write d r;
      try (destruct (IH r2) as (H1 & H2 & H3 & H4 & H5));
      cbn [List.length]; repeat split; lia.
Qed.
End Endings.

(** *** Longer command lines *)

Section Composition.
Context {R : Type}.
Variable resolve : string -> R -> resolution * R.
Variable write : string -> R -> option write_error * R.

(** X5: domains added at the end of the command line change nothing of
    what the script does for the earlier ones: the trace of the run on
    [pre] opens the trace of the run on [pre ++ post], and so do its
    lines. *)
Theorem earlier_domains_unaffected (p : string) (pre post : list string) (r0 : R) :
  (exists more,
      trace (snd (run resolve write (p :: pre ++ post) r0))
      = trace (snd (run resolve write (p :: pre) r0)) ++ more)
  /\ (exists lines,
         stdout (trace (snd (run resolve write (p :: pre ++ post) r0)))
         = stdout (trace (snd (run resolve write (p :: pre) r0))) ++ lines).
Proof.
  assert (H : exists more,
             trace (snd (run resolve write (p :: pre ++ post) r0))
             = trace (snd (run resolve write (p :: pre) r0)) ++ more).
  { unfold run, check_if_resolves; cbn [skipn]. rewrite for_in_app.
    destruct (for_in pre (loop_body resolve write) {| env := r0; trace := [] |})
      as [[[]|e] w1]; cbn [snd].
    - rewrite for_in_frame. unfold after; cbn [snd trace]. eauto.
    - exists []. now rewrite app_nil_r. }
  split; [exact H|].
  destruct H as [more ->]. rewrite stdout_app. eauto.
Qed.

(** X6: a run that went through [pre] without an exception goes on as a run
    on [post] would from the state in which [pre] left the outside world:
    same end, same final state, and the events of the two in sequence. *)
Theorem run_app (p p' : string) (pre post : list string) (r0 : R)
        (w1 : world R event) :
  run resolve write (p :: pre) r0 = (Return tt, w1) ->
  run resolve write (p :: pre ++ post) r0
  = after w1 (run resolve write (p' :: post) (env w1)).
Proof.
  intros Hpre.
  unfold run, check_if_resolves in *; cbn [skipn] in *.
  rewrite for_in_app, Hpre. apply for_in_frame.
Qed.
End Composition.

(** *** What the lines say *)

Section Reports.
Context {R : Type}.
Variable resolve : string -> R -> resolution * R.
Variable write : string -> R -> option write_error * R.


End Reports.

Lemma ends_with_last_answer_witness :
  fst (run (stub_resolve hosts) terminal_ascii [prog; "nope.invalid"; buecher; "example.com"] 0)
  = Raise UnicodeError
  /\ exists earlier last,
      answers (trace (snd (run (stub_resolve hosts) terminal_ascii
                               [prog; "nope.invalid"; buecher; "example.com"] 0)))
      = earlier ++ [last]
      /\ (forall e', In (Raise e') earlier -> e' = gaierror)
      /\ List.length
           (stdout (trace (snd (run (stub_resolve hosts) terminal_ascii
                                    [prog; "nope.invalid"; buecher; "example.com"] 0))))
         = List.length earlier
      /\ (last = Raise UnicodeError
          \/ ((forall e', last = Raise e' -> e' = gaierror)
              /\ exists f, UnicodeError = raised_by_print f)).
Proof.
  split; [reflexivity|].
  apply (ends_with_last_answer_or_its_print
           (stub_resolve hosts) terminal_ascii
           [prog; "nope.invalid"; buecher; "example.com"] 0 UnicodeError).
  reflexivity.
Defined.

Lemma run_app_witness :
  run (stub_resolve hosts) terminal_utf8 [prog; "multi.example"] 0
  = (Return tt,
     {| env := 1;
        trace := [Query "multi.example"
                        (Addresses "192.0.2.1" ["192.0.2.2"; "192.0.2.3"]);
                  Print "multi.example resolves to 192.0.2.1"] |})
  /\ run (stub_resolve hosts) terminal_utf8 [prog; "multi.example"; "multi.example"] 0
     = after {| env := 1;
               trace := [Query "multi.example"
                               (Addresses "192.0.2.1" ["192.0.2.2"; "192.0.2.3"]);
                         Print "multi.example resolves to 192.0.2.1"] |}
             (run (stub_resolve hosts) terminal_utf8 [prog; "multi.example"] 1).
Proof.
  split; [reflexivity|].
  apply (run_app (stub_resolve hosts) terminal_utf8 prog prog
                 ["multi.example"] ["multi.example"] 0).
  reflexivity.
Defined.



End CheckIfResolvesFacts.

(** ** Facts about DNSDumpster.py *)

Module DNSDumpsterFacts.
Import Py DNSDumpster.

Section Script.
Context {Net Res : Type}.
Variable str : Res -> string.
Variable search : option string -> Net -> outcome Res * Net.
Variable parse_args : list string -> outcome (option string).
Variable write : string -> Net -> option write_error * Net.

(** Returning the value just bound is returning the computation. *)
Lemma bind_ret {A : Type} (c : M Net (event (Res := Res)) A) (w : world Net event) :
  (x <- c ;; ret x)%py w = c w.
Proof. unfold bind, ret. now destruct (c w) as [[a|e] w']. Qed.

(** C8: [fetch_results(domain)] is the API's [search(domain)] and nothing
    more: the same value or the same exception, and the same effect on the
    world.  When the command line gives a domain and the search returns a
    result, [main] makes that one search and hands the text of that result,
    unchanged, to the standard output: the line written is that text, and
    if the write fails [main] ends with the exception of the [print],
    nothing written. *)
Theorem fetch_results_is_the_raw_search :
  (forall (domain : option string) (w : world Net event),
      fetch_results search domain w = DNSDumpsterAPI_search search domain w)
  /\ (forall (argv : list string) (domain : option string) (res : Res)
             (net' : Net) (w : world Net event),
         parse_args argv = Return domain ->
         search domain (env w) = (Return res, net') ->
         fetch_results search domain w
         = (Return res,
            {| env := net'; trace := trace w ++ [Search domain (Return res)] |})
         /\ main str search parse_args write argv w
            = match write (str res) net' with
              | (None, net'') =>
                  (Return tt,
                   {| env := net'';
                      trace := trace w ++ [Search domain (Return res);
                                           Print (str res)] |})
              | (Some f, net'') =>
                  (Raise (raised_by_print f),
                   {| env := net'';
                      trace := trace w ++ [Search domain (Return res)] |})
              end).
Proof.
  split.
  - intros domain w. unfold fetch_results. apply bind_ret.
  - intros argv domain res net' w Hargs Hsearch.
    assert (Hf : fetch_results search domain w
                 = (Return res,
                    {| env := net';
                       trace := trace w ++ [Search domain (Return res)] |})).
    { unfold fetch_results. rewrite bind_ret.
      unfold DNSDumpsterAPI_search. now rewrite Hsearch. }
    split; [exact Hf|].
    unfold main, bind at 1. rewrite Hargs.
    unfold bind. rewrite Hf.
    unfold print; cbn [env trace].
    destruct (write (str res) net') as [[f|] net'']; [reflexivity|].
    now rewrite <- app_assoc.
Qed.
End Script.

Lemma fetch_results_witness :
  stub_parse_args ["DNSDumpster.py"; "-d"; "example.com"] = Return (Some "example.com")
  /\ stub_search (Some "example.com") 0
     = (Return ["93.184.216.34"; "ns.example.com"], 1)
  /\ main stub_str stub_search stub_parse_args stub_write
          ["DNSDumpster.py"; "-d"; "example.com"] {| env := 0; trace := [] |}
     = (Return tt,
        {| env := 1;
           trace := [Search (Some "example.com")
                            (Return ["93.184.216.34"; "ns.example.com"]);
                     Print "[93.184.216.34, ns.example.com]"] |}).
Proof.
  split; [reflexivity|]. split; [reflexivity|].
  exact (proj2 (proj2 (fetch_results_is_the_raw_search
                         stub_str stub_search stub_parse_args stub_write)
                      ["DNSDumpster.py"; "-d"; "example.com"] (Some "example.com")
                      ["93.184.216.34"; "ns.example.com"] 1
                      {| env := 0; trace := [] |} eq_refl eq_refl)).
Defined.

(** The same search, with a standard output whose reader is gone: [main]
    ends with the exception of the [print]. *)
Example print_failure_ends_main :
  main stub_str stub_search stub_parse_args closed_pipe
       ["DNSDumpster.py"; "-d"; "example.com"] {| env := 0; trace := [] |}
  = (Raise OSError,
     {| env := 1;
        trace := [Search (Some "example.com")
                         (Return ["93.184.216.34"; "ns.example.com"])] |}).
Proof. reflexivity. Qed.

(** *** Command lines and searches that fail *)

Section Failures.
Context {Net Res : Type}.
Variable str : Res -> string.
Variable search : option string -> Net -> outcome Res * Net.
Variable parse_args : list string -> outcome (option string).
Variable write : string -> Net -> option write_error * Net.

(** X10: an exception of the API's search is not handled anywhere: it
    leaves [fetch_results] and [main] as it is, after the one search, and
    [main] prints nothing. *)
Theorem search_exception_leaves_main
        (argv : list string) (domain : option string) (e : exn) (net' : Net)
        (w : world Net event) :
  parse_args argv = Return domain ->
  search domain (env w) = (Raise e, net') ->
  main str search parse_args write argv w
  = (Raise e, {| env := net'; trace := trace w ++ [Search domain (Raise e)] |}).
Proof.
  intros Hargs Hsearch.
  unfold main, bind at 1. rewrite Hargs.
  unfold bind, fetch_results, bind, DNSDumpsterAPI_search.
  now rewrite Hsearch.
Qed.


(** X12: whatever the command line and the API do, [main] makes at most one
    search, for the domain that the parser returned and for no other, not
    even when that domain is [None]; it prints the text of the result when
    it ends normally, and nothing when it ends with an exception. *)
Theorem main_searches_once_at_most (argv : list string) (w : world Net event) :
  exists new,
    trace (snd (main str search parse_args write argv w)) = trace w ++ new
    /\ List.length (searches new) <= 1
    /\ (forall domain, In domain (searches new) -> parse_args argv = Return domain)
    /\ match fst (main str search parse_args write argv w) with
       | Return _ =>
           exists domain res,
             new = [Search domain (Return res); Print (str res)]
       | Raise _ => printed new = []
       end.
Proof.
  unfold main, bind at 1.
  destruct (parse_args argv) as [domain|e] eqn:Hargs; cbn [fst snd].
  - unfold bind, fetch_results, bind, DNSDumpsterAPI_search, ret.
    destruct (search domain (env w)) as [[res|e] net'] eqn:Hsearch;
      cbn [fst snd trace env].
    + unfold print; cbn [env trace].
      destruct (write (str res) net') as [[f|] net'']; cbn [fst snd trace].
      * exists [Search domain (Return res)]. cbn [searches printed List.length].
        repeat split; [lia|].
        intros d [<-|[]]; reflexivity.
      * exists [Search domain (Return res); Print (str res)].
        rewrite <- app_assoc. cbn [app searches List.length].
        repeat split; [lia| |eauto].
        intros d [<-|[]]; reflexivity.
    + exists [Search domain (Raise e)]. cbn [searches printed List.length].
      repeat split; [lia|].
      intros d [<-|[]]; reflexivity.
  - exists []. rewrite app_nil_r. cbn [searches printed List.length].
    repeat split; [lia|]. intros d [].
Qed.
End Failures.

Lemma search_exception_witness :
  stub_parse_args ["DNSDumpster.py"] = Return None
  /\ stub_search None 0 = (Raise ValueError, 1)
  /\ main stub_str stub_search stub_parse_args stub_write ["DNSDumpster.py"]
          {| env := 0; trace := [] |}
     = (Raise ValueError,
        {| env := 1; trace := [Search None (Raise ValueError)] |}).
Proof.
  split; [reflexivity|]. split; [reflexivity|].
  apply (search_exception_leaves_main
           stub_str stub_search stub_parse_args stub_write ["DNSDumpster.py"] None
           ValueError 1 {| env := 0; trace := [] |}); reflexivity.
Defined.


End DNSDumpsterFacts.
